(** * Per-user rate limiters: sliding window and throttling

    A shallow embedding of [rate_limiter.py] (class
    [SlidingWindowRateLimiter]) and [throlling.py] (class
    [ThrottlingRateLimiter]).

    Modelling conventions.
    - A limiter object is a record; a method that mutates [self] returns
      the updated record next to its Python return value.
    - The per-user dictionaries are [gmap string _]; a [deque] of
      timestamps is a [list Q] whose head is the left end ([window[0]]),
      so [popleft] removes the head and [append] adds at the tail.
    - Every call of [time.time()] is an explicit argument of the method
      that makes it, in the order the readings are taken.
    - Timestamps and durations are exact rationals [Q]: the comparisons and
      subtractions of the source are taken without floating-point
      rounding. *)

From Stdlib Require Import QArith Qminmax Lqa ZArith.
From stdpp Require Import gmap strings list fin_maps pretty.

Local Open Scope Q_scope.

(** Python's two-argument [max(a, b)]: the first argument is kept unless
    the second one is strictly greater. *)
Definition py_max (a b : Q) : Q :=
  if Qle_bool b a then a else b.

(** ** rate_limiter.py *)

Module rate_limiter.

Record SlidingWindowRateLimiter := Build {
  window_size : Q;
  max_requests : Z;
  users_requests : gmap string (list Q)
}.

(** [SlidingWindowRateLimiter.__init__] *)
Definition __init__ (window_size : Q) (max_requests : Z)
  : SlidingWindowRateLimiter :=
  Build window_size max_requests ∅.

(** Assignment to the dictionary held by [self]; the two configuration
    fields are never written after construction. *)
Definition set_users_requests (self : SlidingWindowRateLimiter)
    (m : gmap string (list Q)) : SlidingWindowRateLimiter :=
  Build (window_size self) (max_requests self) m.

(** The loop
    [while window and window[0] <= current_time - self.window_size:
       window.popleft()]
    with [bound] the value of [current_time - self.window_size]. *)
Fixpoint popleft_while (bound : Q) (window : list Q) : list Q :=
  match window with
  | [] => []
  | oldest :: rest =>
      if Qle_bool oldest bound then popleft_while bound rest else window
  end.

(** [SlidingWindowRateLimiter._cleanup_window].  The deque is mutated in
    place, so the dictionary entry sees the shortened deque. *)
Definition _cleanup_window (self : SlidingWindowRateLimiter)
    (user_id : string) (current_time : Q) : SlidingWindowRateLimiter :=
  match users_requests self !! user_id with
  | None => self
  | Some window =>
      let window := popleft_while (current_time - window_size self) window in
      match window with
      | [] => set_users_requests self (delete user_id (users_requests self))
      | _ :: _ =>
          set_users_requests self (<[user_id := window]> (users_requests self))
      end
  end.

(** [SlidingWindowRateLimiter.can_send_message]; [current_time] is its
    one clock reading. *)
Definition can_send_message (self : SlidingWindowRateLimiter)
    (user_id : string) (current_time : Q)
  : bool * SlidingWindowRateLimiter :=
  let self := _cleanup_window self user_id current_time in
  match users_requests self !! user_id with
  | None => (true, self)
  | Some window =>
      ((Z.of_nat (length window) <? max_requests self)%Z, self)
  end.

(** [self.users_requests[user_id].append(current_time)], preceded by the
    creation of an empty deque when the key is missing. *)
Definition append_timestamp (self : SlidingWindowRateLimiter)
    (user_id : string) (current_time : Q) : SlidingWindowRateLimiter :=
  let m := users_requests self in
  let m := match m !! user_id with
           | None => <[user_id := []]> m
           | Some _ => m
           end in
  set_users_requests self
    (alter (λ window, window ++ [current_time]) user_id m).

(** [SlidingWindowRateLimiter.record_message].  [current_time] is the
    reading taken by the method itself; [check_time] is the later reading
    taken inside the nested call of [can_send_message]. *)
Definition record_message (self : SlidingWindowRateLimiter)
    (user_id : string) (current_time check_time : Q)
  : bool * SlidingWindowRateLimiter :=
  let self := _cleanup_window self user_id current_time in
  let '(allowed, self) := can_send_message self user_id check_time in
  if allowed then (true, append_timestamp self user_id current_time)
  else (false, self).

(** [SlidingWindowRateLimiter.time_until_next_allowed].  In the last
    match the empty deque is the case where [window[0]] would raise; lemma
    [cleanup_window_not_empty] below shows that it is never reached. *)
Definition time_until_next_allowed (self : SlidingWindowRateLimiter)
    (user_id : string) (current_time : Q)
  : Q * SlidingWindowRateLimiter :=
  match users_requests self !! user_id with
  | None => (0, self)
  | Some _ =>
      let self := _cleanup_window self user_id current_time in
      match users_requests self !! user_id with
      | None => (0, self)
      | Some window =>
          if (Z.of_nat (length window) <? max_requests self)%Z then (0, self)
          else
            match window with
            | earliest :: _ =>
                let wait_time :=
                  window_size self - (current_time - earliest) in
                (py_max wait_time 0, self)
            | [] => (0, self)
            end
      end
  end.

(** *** Histories of calls *)

(** One call of a public method, with the clock readings it takes. *)
Inductive call :=
  | CanSend (user_id : string) (current_time : Q)
  | Record_ (user_id : string) (current_time check_time : Q)
  | TimeUntil (user_id : string) (current_time : Q).

Definition exec (self : SlidingWindowRateLimiter) (c : call)
  : SlidingWindowRateLimiter :=
  match c with
  | CanSend u t => snd (can_send_message self u t)
  | Record_ u t t' => snd (record_message self u t t')
  | TimeUntil u t => snd (time_until_next_allowed self u t)
  end.

Definition run (self : SlidingWindowRateLimiter) (calls : list call)
  : SlidingWindowRateLimiter :=
  fold_left exec calls self.

(** The clock readings of a call, in the order they are taken. *)
Definition readings (c : call) : list Q :=
  match c with
  | CanSend _ t => [t]
  | Record_ _ t t' => [t; t']
  | TimeUntil _ t => [t]
  end.

(** A sequence of [record_message] calls of one user, each with its two
    readings; returns the answers in order and the final limiter. *)
Fixpoint record_all (self : SlidingWindowRateLimiter) (user_id : string)
    (times : list (Q * Q)) : list bool * SlidingWindowRateLimiter :=
  match times with
  | [] => ([], self)
  | (t, t') :: rest =>
      let '(b, self) := record_message self user_id t t' in
      let '(bs, self) := record_all self user_id rest in
      (b :: bs, self)
  end.

(** A single-snapshot variant of [record_message], written after the
    description "one atomic step": one reading serves the eviction, the
    admission test and the appended timestamp. *)
Definition record_message_atomic (self : SlidingWindowRateLimiter)
    (user_id : string) (now : Q) : bool * SlidingWindowRateLimiter :=
  let self := _cleanup_window self user_id now in
  let allowed :=
    match users_requests self !! user_id with
    | None => true
    | Some window => (Z.of_nat (length window) <? max_requests self)%Z
    end in
  if allowed then (true, append_timestamp self user_id now)
  else (false, self).

End rate_limiter.

(** ** throlling.py *)

Module throlling.

Record ThrottlingRateLimiter := Build {
  min_interval : Q;
  user_last_message_time : gmap string Q
}.

(** [ThrottlingRateLimiter.__init__] *)
Definition __init__ (min_interval : Q) : ThrottlingRateLimiter :=
  Build min_interval ∅.

(** [ThrottlingRateLimiter.can_send_message]; it leaves [self] as it is. *)
Definition can_send_message (self : ThrottlingRateLimiter)
    (user_id : string) (current_time : Q) : bool :=
  match user_last_message_time self !! user_id with
  | None => true
  | Some last_time => Qle_bool (min_interval self) (current_time - last_time)
  end.

(** [ThrottlingRateLimiter.record_message].  [check_time] is the reading
    of the nested [can_send_message]; [store_time] is the later
    [time.time()] that is written to the dictionary. *)
Definition record_message (self : ThrottlingRateLimiter)
    (user_id : string) (check_time store_time : Q)
  : bool * ThrottlingRateLimiter :=
  if can_send_message self user_id check_time then
    (true,
     Build (min_interval self)
           (<[user_id := store_time]> (user_last_message_time self)))
  else (false, self).

(** [ThrottlingRateLimiter.time_until_next_allowed] *)
Definition time_until_next_allowed (self : ThrottlingRateLimiter)
    (user_id : string) (current_time : Q) : Q :=
  match user_last_message_time self !! user_id with
  | None => 0
  | Some last_time =>
      let remaining_time := min_interval self - (current_time - last_time) in
      py_max 0 remaining_time
  end.

End throlling.

(** ** Auxiliary notions used by the statements *)

(** Boolean test that a list of clock readings never goes backwards. *)
Fixpoint nondecreasing (l : list Q) : bool :=
  match l with
  | [] => true
  | x :: rest =>
      match rest with
      | [] => true
      | y :: _ => Qle_bool x y && nondecreasing rest
      end
  end.

(** Number of [true] answers. *)
Definition admitted (answers : list bool) : nat :=
  length (filter (λ b, b = true) answers).

(** The content of a dictionary entry after the eviction loop and the
    deletion of an emptied deque. *)
Definition prune_entry (bound : Q) (entry : option (list Q))
  : option (list Q) :=
  match entry with
  | None => None
  | Some window =>
      match rate_limiter.popleft_while bound window with
      | [] => None
      | w => Some w
      end
  end.


(** The admission test shared by [can_send_message] and, through it, by
    [record_message]: an untracked user passes, a tracked one passes while
    the deque is shorter than [max_requests]. *)
Definition under_limit (self : rate_limiter.SlidingWindowRateLimiter)
    (user_id : string) : bool :=
  match rate_limiter.users_requests self !! user_id with
  | None => true
  | Some window =>
      (Z.of_nat (length window) <? rate_limiter.max_requests self)%Z
  end.

(** The value [time_until_next_allowed] computes from an already cleaned
    dictionary entry. *)
Definition wait_of_entry (window_size : Q) (max_requests : Z) (now : Q)
    (entry : option (list Q)) : Q :=
  match entry with
  | None => 0
  | Some window =>
      if (Z.of_nat (length window) <? max_requests)%Z then 0
      else match window with
           | earliest :: _ => py_max (window_size - (now - earliest)) 0
           | [] => 0
           end
  end.



(** State invariant under a clock that does not go backwards: every
    stored deque is non-empty, in non-decreasing order, and holds no
    timestamp later than the latest reading [hi]. *)
Definition ordered_upto (hi : Q)
    (self : rate_limiter.SlidingWindowRateLimiter) : Prop :=
  ∀ v w, rate_limiter.users_requests self !! v = Some w →
    w ≠ [] ∧ nondecreasing w = true ∧ Forall (λ t, t <= hi) w.

(** State invariant of every history: no deque is longer than
    [max_requests], except that one timestamp is always accepted. *)
Definition within_capacity
    (self : rate_limiter.SlidingWindowRateLimiter) : Prop :=
  ∀ v w, rate_limiter.users_requests self !! v = Some w →
    (Z.of_nat (length w) <= Z.max 1 (rate_limiter.max_requests self))%Z.







(** The later of two clock readings. *)
Definition later_reading (t1 t2 : Q) : Q :=
  if Qle_bool t1 t2 then t2 else t1.



(** State invariant of every history: no stored deque is empty. *)
Definition all_nonempty
    (self : rate_limiter.SlidingWindowRateLimiter) : Prop :=
  ∀ v w, rate_limiter.users_requests self !! v = Some w → w ≠ [].

(** A sequence of [record_message] calls on the throttling limiter, each
    with its user and its two readings (the one of the nested
    [can_send_message], then the one that is stored); returns the answers
    in order and the final limiter. *)
Fixpoint throttle_record_all (self : throlling.ThrottlingRateLimiter)
    (calls : list (string * Q * Q))
  : list bool * throlling.ThrottlingRateLimiter :=
  match calls with
  | [] => ([], self)
  | (u, t, t') :: rest =>
      let '(b, self) := throlling.record_message self u t t' in
      let '(bs, self) := throttle_record_all self rest in
      (b :: bs, self)
  end.

(** The clock readings of such a sequence, in the order they are taken. *)
Definition throttle_readings (calls : list (string * Q * Q)) : list Q :=
  flat_map (λ c, [snd (fst c); snd c]) calls.

(** State invariant of the throttling limiter under a clock that does not
    go backwards: no stored time is later than the latest reading [hi]. *)
Definition stored_upto (hi : Q)
    (self : throlling.ThrottlingRateLimiter) : Prop :=
  ∀ v last, throlling.user_last_message_time self !! v = Some last →
    last <= hi.

(** The times stored for user [u] along a sequence of throttling
    [record_message] calls: the second reading of every admitted call of
    [u], oldest first. *)
Fixpoint throttle_stored_for (u : string)
    (self : throlling.ThrottlingRateLimiter)
    (calls : list (string * Q * Q)) : list Q :=
  match calls with
  | [] => []
  | (v, t, t') :: rest =>
      (if bool_decide (v = u) && fst (throlling.record_message self v t t')
       then [t'] else [])
      ++ throttle_stored_for u (snd (throlling.record_message self v t t')) rest
  end.

(** *** The demonstration streams

    [test_rate_limiter] and [test_throttling_limiter] run the same loop
    body over [range(1, 11)] and over [range(11, 21)].  A message is given
    with the three clock readings taken while it is handled: the two of
    [record_message] and the one of [time_until_next_allowed].  In place
    of the printed line the loop returns a row with the values the line
    is made of; the pauses ([time.sleep]) only move the clock and show in
    the readings of the next message. *)












(** ** Comparisons and [py_max] *)

Lemma Qle_bool_false (x y : Q) : Qle_bool x y = false → y < x.
Proof.
  intros H. destruct (Qlt_le_dec y x) as [Hlt|Hle]; [exact Hlt|].
  apply Qle_bool_iff in Hle. congruence.
Qed.

Lemma Qle_bool_true_of_le (x y : Q) : x <= y → Qle_bool x y = true.
Proof. apply Qle_bool_iff. Qed.

Lemma Qle_bool_false_of_lt (x y : Q) : y < x → Qle_bool x y = false.
Proof.
  intros H. destruct (Qle_bool x y) eqn:E; [|reflexivity].
  apply Qle_bool_iff in E. lra.
Qed.

Ltac qbool :=
  repeat match goal with
  | H : Qle_bool _ _ = true |- _ => apply Qle_bool_iff in H
  | H : Qle_bool _ _ = false |- _ => apply Qle_bool_false in H
  end.



Lemma py_max_l_zero (a : Q) : a <= 0 → py_max 0 a = 0.
Proof. intros H. unfold py_max. by rewrite Qle_bool_true_of_le. Qed.

Lemma py_max_pos_r (a : Q) : 0 < a → py_max a 0 = a.
Proof.
  intros H. unfold py_max. rewrite Qle_bool_true_of_le; [done | lra].
Qed.


(** ** The eviction loop *)

Section popleft.
Import rate_limiter.

Lemma popleft_while_split bound window :
  ∃ gone, window = gone ++ popleft_while bound window
          ∧ Forall (λ t, t <= bound) gone.
Proof.
  induction window as [|x w IH]; simpl.
  - by exists [].
  - destruct (Qle_bool x bound) eqn:E.
    + destruct IH as (gone & Hw & Hg). exists (x :: gone). split.
      * simpl. by rewrite <- Hw.
      * constructor; [by apply Qle_bool_iff | done].
    + by exists [].
Qed.

Lemma popleft_while_front bound window t rest :
  popleft_while bound window = t :: rest → bound < t.
Proof.
  induction window as [|x w IH]; simpl; [done|].
  destruct (Qle_bool x bound) eqn:E; [done|].
  intros [= -> ->]. by apply Qle_bool_false.
Qed.


Lemma popleft_while_fixed bound t rest :
  bound < t → popleft_while bound (t :: rest) = t :: rest.
Proof. intros H. simpl. by rewrite Qle_bool_false_of_lt. Qed.


Lemma popleft_while_again b1 b2 window :
  b1 <= b2 →
  popleft_while b2 (popleft_while b1 window) = popleft_while b2 window.
Proof.
  intros Hb. induction window as [|x w IH]; simpl; [done|].
  destruct (Qle_bool x b1) eqn:E1.
  - qbool. rewrite (Qle_bool_true_of_le x b2) by lra. exact IH.
  - done.
Qed.

Lemma popleft_while_back b1 b2 window :
  b2 <= b1 →
  popleft_while b2 (popleft_while b1 window) = popleft_while b1 window.
Proof.
  intros Hb. destruct (popleft_while b1 window) as [|t rest] eqn:E; [done|].
  apply popleft_while_front in E. apply popleft_while_fixed. lra.
Qed.

Lemma nondecreasing_cons x l :
  nondecreasing (x :: l) = true →
  Forall (λ t, x <= t) l ∧ nondecreasing l = true.
Proof.
  revert x. induction l as [|y l IH]; intros x H; [by split|].
  change (Qle_bool x y && nondecreasing (y :: l) = true) in H.
  apply andb_prop in H as [Hxy Hl]. qbool.
  destruct (IH _ Hl) as [Hall _]. split; [|done].
  constructor; [done|].
  eapply Forall_impl; [exact Hall|]. simpl. intros; lra.
Qed.

Lemma popleft_while_sorted bound window :
  nondecreasing window = true →
  Forall (λ t, bound < t) (popleft_while bound window)
  ∧ nondecreasing (popleft_while bound window) = true.
Proof.
  induction window as [|x w IH]; intros Hs; [by split|].
  pose proof (nondecreasing_cons _ _ Hs) as [Hall Hw].
  simpl. destruct (Qle_bool x bound) eqn:E; [by apply IH|].
  qbool. split; [|done]. constructor; [done|].
  eapply Forall_impl; [exact Hall|]. simpl. intros; lra.
Qed.


End popleft.

(** ** [_cleanup_window] *)

Section cleanup.
Import rate_limiter.
Implicit Types (self : SlidingWindowRateLimiter) (u v : string) (t : Q).

Lemma limiter_ext self self' :
  window_size self = window_size self' →
  max_requests self = max_requests self' →
  (∀ v, users_requests self !! v = users_requests self' !! v) →
  self = self'.
Proof.
  destruct self, self'; simpl. intros -> -> H. f_equal. by apply map_eq.
Qed.

Lemma cleanup_window_size self u t :
  window_size (_cleanup_window self u t) = window_size self.
Proof.
  unfold _cleanup_window. destruct (users_requests self !! u); [|done].
  by destruct (popleft_while _ _).
Qed.

Lemma cleanup_max_requests self u t :
  max_requests (_cleanup_window self u t) = max_requests self.
Proof.
  unfold _cleanup_window. destruct (users_requests self !! u); [|done].
  by destruct (popleft_while _ _).
Qed.

Lemma cleanup_lookup self u t :
  users_requests (_cleanup_window self u t) !! u
  = prune_entry (t - window_size self) (users_requests self !! u).
Proof.
  unfold _cleanup_window, prune_entry.
  destruct (users_requests self !! u) as [w|] eqn:E; [|done].
  destruct (popleft_while _ w); simpl.
  - apply lookup_delete_eq.
  - apply lookup_insert_eq.
Qed.

Lemma cleanup_lookup_ne self u v t :
  u ≠ v →
  users_requests (_cleanup_window self u t) !! v = users_requests self !! v.
Proof.
  intros Hne. unfold _cleanup_window.
  destruct (users_requests self !! u) as [w|]; [|done].
  destruct (popleft_while _ w); simpl.
  - by apply lookup_delete_ne.
  - by apply lookup_insert_ne.
Qed.

Lemma cleanup_window_untracked self u t :
  users_requests self !! u = None → _cleanup_window self u t = self.
Proof. intros H. unfold _cleanup_window. by rewrite H. Qed.

Lemma prune_entry_not_empty bound entry :
  prune_entry bound entry ≠ Some [].
Proof.
  destruct entry as [w|]; simpl; [|done]. by destruct (popleft_while _ _).
Qed.

(** After a cleanup the user is either untracked or has a non-empty
    deque, so [window[0]] in [time_until_next_allowed] is defined. *)
Lemma cleanup_window_not_empty self u t :
  users_requests (_cleanup_window self u t) !! u ≠ Some [].
Proof. rewrite cleanup_lookup. apply prune_entry_not_empty. Qed.

Lemma prune_entry_again b1 b2 entry :
  b1 <= b2 → prune_entry b2 (prune_entry b1 entry) = prune_entry b2 entry.
Proof.
  intros Hb. destruct entry as [w|]; simpl; [|done].
  pose proof (popleft_while_again b1 b2 w Hb) as H.
  destruct (popleft_while b1 w) as [|x r] eqn:E1.
  - simpl in H. by rewrite <- H.
  - change (prune_entry b2 (Some (x :: r))
            = match popleft_while b2 w with [] => None | w => Some w end).
    by rewrite <- H.
Qed.

Lemma prune_entry_back b1 b2 entry :
  b2 <= b1 → prune_entry b2 (prune_entry b1 entry) = prune_entry b1 entry.
Proof.
  intros Hb. destruct entry as [w|]; simpl; [|done].
  pose proof (popleft_while_back b1 b2 w Hb) as H.
  destruct (popleft_while b1 w) as [|x r] eqn:E1; [done|].
  change (prune_entry b2 (Some (x :: r)) = Some (x :: r)).
  unfold prune_entry. by rewrite H.
Qed.

(** Cleaning again at a later reading gives what one cleanup at the later
    reading gives. *)
Lemma cleanup_window_again self u t1 t2 :
  t1 <= t2 →
  _cleanup_window (_cleanup_window self u t1) u t2 = _cleanup_window self u t2.
Proof.
  intros Ht. apply limiter_ext.
  - by rewrite !cleanup_window_size.
  - by rewrite !cleanup_max_requests.
  - intros v. destruct (decide (u = v)) as [<-|Hne].
    + rewrite !cleanup_lookup, cleanup_window_size.
      apply prune_entry_again. lra.
    + by rewrite !cleanup_lookup_ne.
Qed.

(** Cleaning again at an earlier or equal reading evicts nothing. *)
Lemma cleanup_window_back self u t1 t2 :
  t2 <= t1 →
  _cleanup_window (_cleanup_window self u t1) u t2 = _cleanup_window self u t1.
Proof.
  intros Ht. apply limiter_ext.
  - by rewrite !cleanup_window_size.
  - by rewrite !cleanup_max_requests.
  - intros v. destruct (decide (u = v)) as [<-|Hne].
    + rewrite !cleanup_lookup, cleanup_window_size.
      apply prune_entry_back. lra.
    + by rewrite !cleanup_lookup_ne.
Qed.

Lemma cleanup_window_idem self u t :
  _cleanup_window (_cleanup_window self u t) u t = _cleanup_window self u t.
Proof. apply cleanup_window_back. lra. Qed.

(** *** The public methods in terms of the cleaned limiter *)

Lemma can_send_message_eq self u t :
  can_send_message self u t
  = (under_limit (_cleanup_window self u t) u, _cleanup_window self u t).
Proof.
  unfold can_send_message, under_limit.
  by destruct (users_requests (_cleanup_window self u t) !! u).
Qed.

Lemma record_message_eq self u t t' :
  record_message self u t t'
  = if under_limit (_cleanup_window (_cleanup_window self u t) u t') u
    then (true,
          append_timestamp
            (_cleanup_window (_cleanup_window self u t) u t') u t)
    else (false, _cleanup_window (_cleanup_window self u t) u t').
Proof.
  unfold record_message. rewrite can_send_message_eq. done.
Qed.

Lemma time_until_next_allowed_eq self u t :
  time_until_next_allowed self u t
  = (wait_of_entry (window_size self) (max_requests self) t
       (users_requests (_cleanup_window self u t) !! u),
     _cleanup_window self u t).
Proof.
  unfold time_until_next_allowed.
  destruct (users_requests self !! u) as [w|] eqn:E.
  - rewrite cleanup_window_size, cleanup_max_requests.
    destruct (users_requests (_cleanup_window self u t) !! u) as [w'|];
      simpl; [|done].
    destruct (Z.of_nat (length w') <? max_requests self)%Z; [done|].
    by destruct w'.
  - rewrite cleanup_window_untracked by done. by rewrite E.
Qed.

Lemma append_timestamp_lookup self u t :
  users_requests (append_timestamp self u t) !! u
  = Some (default [] (users_requests self !! u) ++ [t]).
Proof.
  unfold append_timestamp; simpl.
  destruct (users_requests self !! u) as [w|] eqn:E; simpl.
  - by rewrite lookup_alter_eq, E.
  - by rewrite lookup_alter_eq, lookup_insert_eq.
Qed.

Lemma append_timestamp_lookup_ne self u v t :
  u ≠ v →
  users_requests (append_timestamp self u t) !! v = users_requests self !! v.
Proof.
  intros Hne. unfold append_timestamp; simpl.
  rewrite lookup_alter_ne by done.
  destruct (users_requests self !! u); [done|]. by rewrite lookup_insert_ne.
Qed.

End cleanup.

(** ** Scenarios of the two demonstration configurations *)

Example sliding_scenario :
  let l0 := rate_limiter.__init__ 10 1 in
  let '(a1, l1) := rate_limiter.record_message l0 "1" 0 0 in
  let '(a2, l2) := rate_limiter.record_message l1 "1" 5 5 in
  let '(w2, l3) := rate_limiter.time_until_next_allowed l2 "1" 5 in
  let '(a3, l4) := rate_limiter.record_message l3 "1" 10.1 10.1 in
  (a1, a2, Qeq_bool w2 5, a3, rate_limiter.users_requests l4 !! "1")
  = (true, false, true, true, Some [10.1]).
Proof. vm_compute. reflexivity. Qed.

Example throttling_scenario :
  let l0 := throlling.__init__ 10 in
  let '(a1, l1) := throlling.record_message l0 "2" 0 0 in
  let '(a2, l2) := throlling.record_message l1 "2" 9.9 9.9 in
  let w2 := throlling.time_until_next_allowed l2 "2" 9.9 in
  let '(a3, l3) := throlling.record_message l2 "2" 10 10 in
  (a1, a2, Qeq_bool w2 0.1, a3, throlling.user_last_message_time l3 !! "2")
  = (true, false, true, true, Some 10).
Proof. vm_compute. reflexivity. Qed.

(** ** Per-user isolation *)

Section isolation.
Import rate_limiter.

Lemma record_message_lookup_ne self u v t t' :
  u ≠ v →
  users_requests (snd (record_message self u t t')) !! v
  = users_requests self !! v.
Proof.
  intros Hne. rewrite record_message_eq.
  destruct (under_limit _ u); cbn [snd].
  - rewrite append_timestamp_lookup_ne by done.
    by rewrite !cleanup_lookup_ne.
  - by rewrite !cleanup_lookup_ne.
Qed.

Lemma can_send_message_lookup_ne self u v t :
  u ≠ v →
  users_requests (snd (can_send_message self u t)) !! v
  = users_requests self !! v.
Proof.
  intros Hne. rewrite can_send_message_eq. cbn [snd].
  by rewrite cleanup_lookup_ne.
Qed.

Lemma time_until_next_allowed_lookup_ne self u v t :
  u ≠ v →
  users_requests (snd (time_until_next_allowed self u t)) !! v
  = users_requests self !! v.
Proof.
  intros Hne. rewrite time_until_next_allowed_eq. cbn [snd].
  by rewrite cleanup_lookup_ne.
Qed.

End isolation.

(** C10. Per-user isolation: a call of [can_send_message],
    [record_message] or [time_until_next_allowed] for user [u] leaves the
    dictionary entry of every other user [v] as it was, in both limiters.
    In the throttling limiter only [record_message] returns a limiter at
    all: the other two methods never assign to [self]. *)
Theorem per_user_isolation (u v : string) :
  u ≠ v →
  (∀ self t,
     rate_limiter.users_requests
       (snd (rate_limiter.can_send_message self u t)) !! v
     = rate_limiter.users_requests self !! v)
  ∧ (∀ self t t',
       rate_limiter.users_requests
         (snd (rate_limiter.record_message self u t t')) !! v
       = rate_limiter.users_requests self !! v)
  ∧ (∀ self t,
       rate_limiter.users_requests
         (snd (rate_limiter.time_until_next_allowed self u t)) !! v
       = rate_limiter.users_requests self !! v)
  ∧ (∀ self t t',
       throlling.user_last_message_time
         (snd (throlling.record_message self u t t')) !! v
       = throlling.user_last_message_time self !! v).
Proof.
  intros Hne. repeat split; intros.
  - by apply can_send_message_lookup_ne.
  - by apply record_message_lookup_ne.
  - by apply time_until_next_allowed_lookup_ne.
  - unfold throlling.record_message.
    destruct (throlling.can_send_message self u t); simpl; [|done].
    by rewrite lookup_insert_ne.
Qed.

Lemma per_user_isolation_witness :
  let self := snd (rate_limiter.record_message
                     (rate_limiter.__init__ 10 1) "2" 0 0) in
  rate_limiter.users_requests
    (snd (rate_limiter.record_message self "1" 3 3)) !! "2"
  = rate_limiter.users_requests self !! "2".
Proof.
  intros self.
  exact (proj1 (proj2 (per_user_isolation "1" "2" ltac:(discriminate)))
           self 3 3).
Defined.

(** ** Users without an entry *)

Section untracked.
Import rate_limiter.

Lemma popleft_while_all_expired bound window :
  Forall (λ t, t <= bound) window → popleft_while bound window = [].
Proof.
  induction 1 as [|x w Hx Hw IH]; simpl; [done|].
  by rewrite Qle_bool_true_of_le.
Qed.

Lemma cleanup_window_expired self u t :
  (users_requests self !! u = None
   ∨ ∃ w, users_requests self !! u = Some w
          ∧ Forall (λ x, x <= t - window_size self) w) →
  users_requests (_cleanup_window self u t) !! u = None.
Proof.
  intros H. rewrite cleanup_lookup.
  destruct H as [-> | (w & -> & Hw)]; simpl; [done|].
  by rewrite popleft_while_all_expired.
Qed.

Lemma under_limit_untracked self u :
  users_requests self !! u = None → under_limit self u = true.
Proof. intros H. unfold under_limit. by rewrite H. Qed.

Lemma record_message_untracked self u t t' :
  users_requests self !! u = None →
  record_message self u t t'
  = (true, set_users_requests self (<[u := [t]]> (users_requests self))).
Proof.
  intros H. rewrite record_message_eq.
  rewrite !cleanup_window_untracked by (by rewrite ?cleanup_window_untracked).
  rewrite under_limit_untracked by done.
  unfold append_timestamp. rewrite H. by rewrite alter_insert_eq.
Qed.

End untracked.

(** C8. Unknown-user default: for a user without an entry in the
    dictionary -- never seen, or with an entry whose timestamps have all
    left the window at the reading [t] -- both limiters answer [true] from
    [can_send_message] and [record_message] and [0] from
    [time_until_next_allowed]. *)
Theorem unknown_user_default
    (sw : rate_limiter.SlidingWindowRateLimiter)
    (th : throlling.ThrottlingRateLimiter) (u : string) (t t' : Q) :
  (rate_limiter.users_requests sw !! u = None
   ∨ ∃ w, rate_limiter.users_requests sw !! u = Some w
          ∧ Forall (λ x, x <= t - rate_limiter.window_size sw) w) →
  throlling.user_last_message_time th !! u = None →
  fst (rate_limiter.can_send_message sw u t) = true
  ∧ fst (rate_limiter.record_message sw u t t') = true
  ∧ fst (rate_limiter.time_until_next_allowed sw u t) = 0
  ∧ throlling.can_send_message th u t = true
  ∧ fst (throlling.record_message th u t t') = true
  ∧ throlling.time_until_next_allowed th u t = 0.
Proof.
  intros Hsw Hth.
  pose proof (cleanup_window_expired sw u t Hsw) as Hclean.
  repeat split.
  - rewrite can_send_message_eq. cbn [fst].
    by apply under_limit_untracked.
  - rewrite record_message_eq.
    rewrite (cleanup_window_untracked _ u t') by done.
    by rewrite under_limit_untracked.
  - rewrite time_until_next_allowed_eq. cbn [fst]. by rewrite Hclean.
  - unfold throlling.can_send_message. by rewrite Hth.
  - unfold throlling.record_message, throlling.can_send_message.
    by rewrite Hth.
  - unfold throlling.time_until_next_allowed. by rewrite Hth.
Qed.

Lemma unknown_user_default_witness :
  let sw := rate_limiter.__init__ 10 1 in
  let th := throlling.__init__ 10 in
  fst (rate_limiter.can_send_message sw "1" 3) = true
  ∧ fst (rate_limiter.record_message sw "1" 3 4) = true
  ∧ fst (rate_limiter.time_until_next_allowed sw "1" 3) = 0
  ∧ throlling.can_send_message th "1" 3 = true
  ∧ fst (throlling.record_message th "1" 3 4) = true
  ∧ throlling.time_until_next_allowed th "1" 3 = 0.
Proof.
  intros sw th.
  apply (unknown_user_default sw th "1" 3 4); [left|]; reflexivity.
Defined.

(** C9. Unconditional first admission: a user absent from the dictionary
    is admitted by [record_message] whatever [max_requests] is, and the
    reading of [record_message] becomes the user's only timestamp.  With
    [max_requests = 0] one call is therefore admitted although the
    configured maximum is zero. *)
Theorem first_admission_ignores_capacity
    (self : rate_limiter.SlidingWindowRateLimiter) (u : string) (t t' : Q) :
  rate_limiter.users_requests self !! u = None →
  rate_limiter.record_message self u t t'
  = (true,
     rate_limiter.set_users_requests self
       (<[u := [t]]> (rate_limiter.users_requests self)))
  ∧ (rate_limiter.max_requests self = 0%Z →
     (Z.of_nat (admitted (fst (rate_limiter.record_all self u [(t, t')])))
      > rate_limiter.max_requests self)%Z).
Proof.
  intros H. split; [by apply record_message_untracked|].
  intros Hmax. simpl. rewrite record_message_untracked by done.
  rewrite Hmax. reflexivity.
Qed.

Lemma first_admission_ignores_capacity_witness :
  let self := rate_limiter.__init__ 10 0 in
  rate_limiter.record_message self "1" 3 4
  = (true,
     rate_limiter.set_users_requests self
       (<["1" := [3]]> (rate_limiter.users_requests self)))
  ∧ (Z.of_nat
       (admitted (fst (rate_limiter.record_all self "1" [(3%Q, 4%Q)])))
     > rate_limiter.max_requests self)%Z.
Proof.
  intros self.
  destruct (first_admission_ignores_capacity self "1" 3 4 eq_refl)
    as [Hrecord Hexceed].
  split; [exact Hrecord | exact (Hexceed eq_refl)].
Defined.

(** ** Wait times *)




(** ** Throttling admission *)

Lemma throttle_can_send_iff (self : throlling.ThrottlingRateLimiter)
    (u : string) (now : Q) :
  throlling.can_send_message self u now = true
  ↔ (throlling.user_last_message_time self !! u = None
     ∨ ∃ last_time,
         throlling.user_last_message_time self !! u = Some last_time
         ∧ throlling.min_interval self <= now - last_time).
Proof.
  unfold throlling.can_send_message.
  destruct (throlling.user_last_message_time self !! u) as [last|].
  - rewrite Qle_bool_iff. split.
    + intros H. right. by exists last.
    + intros [?|(l & [= <-] & H)]; done.
  - split; [by left|done].
Qed.




(** ** One reading or two in [record_message] *)

Section snapshot.
Import rate_limiter.

Lemma record_message_atomic_eq self u now :
  record_message_atomic self u now
  = if under_limit (_cleanup_window self u now) u
    then (true, append_timestamp (_cleanup_window self u now) u now)
    else (false, _cleanup_window self u now).
Proof. reflexivity. Qed.

Lemma record_message_same_reading self u now :
  record_message self u now now = record_message_atomic self u now.
Proof.
  rewrite record_message_eq, record_message_atomic_eq.
  by rewrite cleanup_window_idem.
Qed.

End snapshot.

(** C3, as stated, fails.  Window 10, one request allowed, user "1"
    admitted at time 0.  A later [record_message] reads 9.999 itself and
    10 inside [can_send_message]: the timestamp 0 is evicted by the second
    reading only, the call is admitted and stores 9.999.  A single-snapshot
    call at 9.999 refuses, and a single-snapshot call at 10 stores 10. *)
Lemma record_message_two_readings_differ :
  let self := snd (rate_limiter.record_message
                     (rate_limiter.__init__ 10 1) "1" 0 0) in
  rate_limiter.record_message self "1" 9.999 10
  = (true, rate_limiter.Build 10 1 {["1" := [9.999]]})
  ∧ rate_limiter.record_message_atomic self "1" 9.999
    = (false, rate_limiter.Build 10 1 {["1" := [0]]})
  ∧ rate_limiter.record_message_atomic self "1" 10
    = (true, rate_limiter.Build 10 1 {["1" := [10]]})
  ∧ rate_limiter.record_message self "1" 9.999 10
    ≠ rate_limiter.record_message_atomic self "1" 9.999
  ∧ rate_limiter.record_message self "1" 9.999 10
    ≠ rate_limiter.record_message_atomic self "1" 10.
Proof.
  intros self.
  assert (H1 : rate_limiter.record_message self "1" 9.999 10
               = (true, rate_limiter.Build 10 1 {["1" := [9.999]]})).
  { vm_compute. reflexivity. }
  assert (H2 : rate_limiter.record_message_atomic self "1" 9.999
               = (false, rate_limiter.Build 10 1 {["1" := [0]]})).
  { vm_compute. reflexivity. }
  assert (H3 : rate_limiter.record_message_atomic self "1" 10
               = (true, rate_limiter.Build 10 1 {["1" := [10]]})).
  { vm_compute. reflexivity. }
  repeat split; try assumption.
  - rewrite H1, H2. discriminate.
  - rewrite H1, H3. intros H.
    apply (f_equal (λ r, rate_limiter.users_requests (snd r) !! "1")) in H.
    vm_compute in H. discriminate.
Qed.

(** C3, amended.  With readings [t <= t'], [record_message] decides as
    [can_send_message] does at the second reading [t'], and on admission
    the user's deque is the one cleaned at [t'] with the first reading [t]
    appended.  When the cleanup at [t'] evicts nothing more than the
    cleanup at [t] -- in particular when both readings are equal -- the
    call coincides with the single-snapshot implementation at [t]. *)
Theorem record_message_timestamp_basis
    (self : rate_limiter.SlidingWindowRateLimiter) (u : string) (t t' : Q) :
  t <= t' →
  fst (rate_limiter.record_message self u t t')
  = fst (rate_limiter.can_send_message self u t')
  ∧ (fst (rate_limiter.record_message self u t t') = true →
     rate_limiter.users_requests
       (snd (rate_limiter.record_message self u t t')) !! u
     = Some (default []
               (rate_limiter.users_requests
                  (rate_limiter._cleanup_window self u t') !! u) ++ [t]))
  ∧ (rate_limiter._cleanup_window self u t'
     = rate_limiter._cleanup_window self u t →
     rate_limiter.record_message self u t t'
     = rate_limiter.record_message_atomic self u t)
  ∧ rate_limiter.record_message self u t t
    = rate_limiter.record_message_atomic self u t.
Proof.
  intros Ht. rewrite record_message_eq, can_send_message_eq.
  rewrite cleanup_window_again by done. repeat split.
  - by destruct (under_limit _ u).
  - destruct (under_limit _ u); [|done]. intros _. cbn [snd].
    apply append_timestamp_lookup.
  - intros ->. by rewrite record_message_atomic_eq.
  - apply record_message_same_reading.
Qed.

Lemma record_message_timestamp_basis_witness :
  let self := snd (rate_limiter.record_message
                     (rate_limiter.__init__ 10 1) "1" 0 0) in
  fst (rate_limiter.record_message self "1" 9.999 10)
  = fst (rate_limiter.can_send_message self "1" 10).
Proof.
  intros self.
  apply (record_message_timestamp_basis self "1" 9.999 10).
  vm_compute. discriminate.
Defined.

(** ** Rejected calls *)

Section rejection.
Import rate_limiter.

Lemma under_limit_false self u :
  under_limit self u = false →
  ∃ w, users_requests self !! u = Some w
       ∧ (max_requests self <= Z.of_nat (length w))%Z.
Proof.
  unfold under_limit. destruct (users_requests self !! u) as [w|]; [|done].
  intros H. apply Z.ltb_ge in H. by exists w.
Qed.

Lemma prune_entry_Some bound entry w :
  prune_entry bound entry = Some w →
  ∃ gone, entry = Some (gone ++ w) ∧ Forall (λ t, t <= bound) gone.
Proof.
  destruct entry as [w0|]; simpl; [|done].
  destruct (popleft_while_split bound w0) as (gone & Hw0 & Hgone).
  destruct (popleft_while bound w0) as [|x r]; [done|].
  intros [= <-]. exists gone. by rewrite Hw0 at 1.
Qed.

Lemma record_message_rejected self u t t' :
  fst (record_message self u t t') = false →
  record_message self u t t'
  = (false, _cleanup_window (_cleanup_window self u t) u t')
  ∧ under_limit (_cleanup_window (_cleanup_window self u t) u t') u = false.
Proof.
  rewrite record_message_eq. by destruct (under_limit _ u).
Qed.

End rejection.

(** C6. No mutation on rejection.  Sliding window: when
    [record_message] (readings [t], [t']) answers [false], the user's deque
    afterwards is the old deque without a prefix of timestamps that had
    left the window at [t] or at [t'] -- nothing is appended --, every
    other user's entry is untouched, and [time_until_next_allowed] at any
    reading [now] not earlier than [t] and [t'] returns the same value and
    the same limiter as it would without the rejected call.  Throttling:
    a rejected [record_message] returns the limiter it was given, so every
    later [time_until_next_allowed] is the same. *)
Theorem no_mutation_on_rejection
    (sw : rate_limiter.SlidingWindowRateLimiter)
    (th : throlling.ThrottlingRateLimiter) (u : string) (t t' : Q) :
  (fst (rate_limiter.record_message sw u t t') = false →
   let sw' := snd (rate_limiter.record_message sw u t t') in
   (∃ gone kept,
      rate_limiter.users_requests sw !! u = Some (gone ++ kept)
      ∧ rate_limiter.users_requests sw' !! u = Some kept
      ∧ Forall (λ x, x <= t - rate_limiter.window_size sw
                     ∨ x <= t' - rate_limiter.window_size sw) gone)
   ∧ (∀ v, v ≠ u →
        rate_limiter.users_requests sw' !! v
        = rate_limiter.users_requests sw !! v)
   ∧ (∀ now, t <= now → t' <= now →
        rate_limiter.time_until_next_allowed sw' u now
        = rate_limiter.time_until_next_allowed sw u now))
  ∧ (fst (throlling.record_message th u t t') = false →
     snd (throlling.record_message th u t t') = th
     ∧ ∀ now,
         throlling.time_until_next_allowed
           (snd (throlling.record_message th u t t')) u now
         = throlling.time_until_next_allowed th u now).
Proof.
  split.
  - intros Hrej sw'.
    destruct (record_message_rejected sw u t t' Hrej) as [Heq Hfull].
    subst sw'. rewrite Heq. cbn [snd]. split; [|split].
    + destruct (under_limit_false _ _ Hfull) as (kept & Hkept & _).
      pose proof Hkept as Hk.
      rewrite cleanup_lookup, cleanup_window_size in Hk.
      apply prune_entry_Some in Hk as (g2 & Hmid & Hg2).
      rewrite cleanup_lookup in Hmid.
      apply prune_entry_Some in Hmid as (g1 & Hold & Hg1).
      exists (g1 ++ g2), kept. split; [by rewrite <- (assoc_L (++))|].
      split; [exact Hkept|].
      apply Forall_app. split.
      * eapply Forall_impl; [exact Hg1|]. simpl. by left.
      * eapply Forall_impl; [exact Hg2|]. simpl. by right.
    + intros v Hne. by rewrite !cleanup_lookup_ne.
    + intros now H1 H2. rewrite !time_until_next_allowed_eq.
      rewrite !cleanup_window_size, !cleanup_max_requests.
      by rewrite !cleanup_window_again.
  - unfold throlling.record_message.
    destruct (throlling.can_send_message th u t); done.
Qed.

Lemma no_mutation_on_rejection_witness :
  let sw := snd (rate_limiter.record_message
                   (rate_limiter.__init__ 10 1) "1" 0 0) in
  let sw' := snd (rate_limiter.record_message sw "1" 5 5) in
  rate_limiter.time_until_next_allowed sw' "1" 7
  = rate_limiter.time_until_next_allowed sw "1" 7.
Proof.
  intros sw sw'.
  destruct (no_mutation_on_rejection sw (throlling.__init__ 10) "1" 5 5)
    as [Hsliding _].
  destruct (Hsliding eq_refl) as (_ & _ & Hwait).
  apply Hwait; vm_compute; discriminate.
Defined.

(** ** Histories under a clock that does not go backwards *)

Section ordered.
Import rate_limiter.
Implicit Types (self : SlidingWindowRateLimiter) (u v : string).

Lemma nondecreasing_inv x y l :
  nondecreasing (x :: y :: l) = true →
  x <= y ∧ nondecreasing (y :: l) = true.
Proof.
  intros H. change (Qle_bool x y && nondecreasing (y :: l) = true) in H.
  apply andb_prop in H as [Hxy Hl]. by qbool.
Qed.

Lemma nondecreasing_snoc w t :
  nondecreasing w = true → Forall (λ x, x <= t) w →
  nondecreasing (w ++ [t]) = true.
Proof.
  induction w as [|x w IH]; intros Hs Hall; [done|].
  apply Forall_cons in Hall as [Hx Hall].
  destruct w as [|y w].
  - simpl. by rewrite Qle_bool_true_of_le.
  - apply nondecreasing_inv in Hs as [Hxy Hs].
    change (Qle_bool x y && nondecreasing ((y :: w) ++ [t]) = true).
    rewrite Qle_bool_true_of_le by done. by apply IH.
Qed.

Lemma nondecreasing_head l y :
  head l = Some y → nondecreasing l = true → nondecreasing (y :: l) = true.
Proof.
  destruct l as [|x l]; [done|]. intros [= ->] H.
  change (Qle_bool y y && nondecreasing (y :: l) = true).
  rewrite Qle_bool_true_of_le by lra. done.
Qed.

Lemma ordered_upto_init hi W M : ordered_upto hi (__init__ W M).
Proof. intros v w H. simpl in H. by rewrite lookup_empty in H. Qed.

Lemma ordered_upto_weaken hi hi' self :
  hi <= hi' → ordered_upto hi self → ordered_upto hi' self.
Proof.
  intros Hle Hinv v w Hw. destruct (Hinv v w Hw) as (Hne & Hs & Hall).
  repeat split; [done..|].
  eapply Forall_impl; [exact Hall|]. simpl. intros; lra.
Qed.

Lemma ordered_upto_cleanup hi self u t :
  ordered_upto hi self → ordered_upto hi (_cleanup_window self u t).
Proof.
  intros Hinv v w Hw. destruct (decide (u = v)) as [<-|Hne].
  - assert (Hne : w ≠ []).
    { intros ->. by destruct (cleanup_window_not_empty self u t). }
    rewrite cleanup_lookup in Hw.
    destruct (users_requests self !! u) as [w0|] eqn:E; [|done].
    destruct (Hinv u w0 E) as (_ & Hs & Hall).
    simpl in Hw.
    pose proof (popleft_while_sorted (t - window_size self) w0 Hs)
      as [_ Hs'].
    destruct (popleft_while_split (t - window_size self) w0)
      as (gone & Hw0 & _).
    destruct (popleft_while _ w0) as [|x r] eqn:Ep; [done|].
    injection Hw as <-. repeat split; [done..|].
    rewrite Hw0 in Hall. by apply Forall_app in Hall as [_ ?].
  - rewrite cleanup_lookup_ne in Hw by done. exact (Hinv v w Hw).
Qed.

Lemma ordered_upto_append hi self u t :
  hi <= t → ordered_upto hi self →
  ordered_upto t (append_timestamp self u t).
Proof.
  intros Hle Hinv v w Hw. destruct (decide (u = v)) as [<-|Hne].
  - rewrite append_timestamp_lookup in Hw. injection Hw as <-.
    assert (Hold : nondecreasing (default [] (users_requests self !! u))
                   = true
                   ∧ Forall (λ x, x <= t)
                       (default [] (users_requests self !! u))).
    { destruct (users_requests self !! u) as [w0|] eqn:E; [|done].
      destruct (Hinv u w0 E) as (_ & Hs & Hall). split; [done|].
      eapply Forall_impl; [exact Hall|]. simpl. intros; lra. }
    destruct Hold as [Hs Hall]. repeat split.
    + by destruct (default [] _).
    + by apply nondecreasing_snoc.
    + apply Forall_app. split; [done|]. constructor; [lra|done].
  - rewrite append_timestamp_lookup_ne in Hw by done.
    exact (ordered_upto_weaken hi t self Hle Hinv v w Hw).
Qed.

Lemma ordered_upto_exec hi self c rest :
  ordered_upto hi self →
  nondecreasing (hi :: readings c ++ rest) = true →
  ∃ hi', ordered_upto hi' (exec self c)
         ∧ nondecreasing (hi' :: rest) = true.
Proof.
  intros Hinv Hclock.
  destruct c as [u t|u t t'|u t]; cbn [readings app] in Hclock.
  - apply nondecreasing_inv in Hclock as [Hle Hclock].
    exists t. split; [|done]. simpl. rewrite can_send_message_eq.
    cbn [snd]. apply ordered_upto_cleanup.
    by apply (ordered_upto_weaken hi).
  - apply nondecreasing_inv in Hclock as [Hle Hclock].
    apply nondecreasing_inv in Hclock as [Hle' Hclock].
    exists t'. split; [|done]. simpl. rewrite record_message_eq.
    assert (Hclean : ordered_upto hi
              (_cleanup_window (_cleanup_window self u t) u t'))
      by by do 2 apply ordered_upto_cleanup.
    destruct (under_limit _ u); cbn [snd].
    + apply (ordered_upto_weaken t); [done|].
      by apply (ordered_upto_append hi).
    + apply (ordered_upto_weaken hi); [lra|done].
  - apply nondecreasing_inv in Hclock as [Hle Hclock].
    exists t. split; [|done]. simpl. rewrite time_until_next_allowed_eq.
    cbn [snd]. apply ordered_upto_cleanup.
    by apply (ordered_upto_weaken hi).
Qed.

Lemma ordered_upto_run calls : ∀ hi self rest,
  ordered_upto hi self →
  nondecreasing (hi :: flat_map readings calls ++ rest) = true →
  ∃ hi', ordered_upto hi' (run self calls)
         ∧ nondecreasing (hi' :: rest) = true.
Proof.
  induction calls as [|c calls IH]; intros hi self rest Hinv Hclock.
  - by exists hi.
  - cbn [flat_map] in Hclock. rewrite <- (assoc_L (++)) in Hclock.
    destruct (ordered_upto_exec hi self c _ Hinv Hclock)
      as (hi1 & Hinv1 & Hclock1).
    exact (IH hi1 (exec self c) rest Hinv1 Hclock1).
Qed.


End ordered.

Section histories.
Import rate_limiter.
Implicit Types (self : SlidingWindowRateLimiter) (u v : string).

Lemma append_timestamp_config self u t :
  window_size (append_timestamp self u t) = window_size self
  ∧ max_requests (append_timestamp self u t) = max_requests self.
Proof. done. Qed.

Lemma exec_config self c :
  window_size (exec self c) = window_size self
  ∧ max_requests (exec self c) = max_requests self.
Proof.
  destruct c as [u t|u t t'|u t]; simpl.
  - rewrite can_send_message_eq. cbn [snd].
    by rewrite cleanup_window_size, cleanup_max_requests.
  - rewrite record_message_eq. destruct (under_limit _ u); cbn [snd].
    + destruct (append_timestamp_config
                  (_cleanup_window (_cleanup_window self u t) u t') u t)
        as [-> ->].
      by rewrite !cleanup_window_size, !cleanup_max_requests.
    + by rewrite !cleanup_window_size, !cleanup_max_requests.
  - rewrite time_until_next_allowed_eq. cbn [snd].
    by rewrite cleanup_window_size, cleanup_max_requests.
Qed.

Lemma run_config calls : ∀ self,
  window_size (run self calls) = window_size self
  ∧ max_requests (run self calls) = max_requests self.
Proof.
  induction calls as [|c calls IH]; intros self; [done|].
  simpl. destruct (IH (exec self c)) as [-> ->]. apply exec_config.
Qed.


End histories.



(** The order of the deque is what the clock provides: with readings 5,
    then 0, then 12, the loop stops at the front element 5 and the
    timestamp 0 stays although [0 <= 12 - 10]. *)
Example eviction_with_clock_going_back :
  let self := rate_limiter.run (rate_limiter.__init__ 10 2)
                [rate_limiter.Record_ "1" 5 5; rate_limiter.Record_ "1" 0 0] in
  rate_limiter.users_requests (rate_limiter._cleanup_window self "1" 12) !! "1"
  = Some [5; 0].
Proof. vm_compute. reflexivity. Qed.

(** ** Deque lengths along a history *)

Section capacity.
Import rate_limiter.
Implicit Types (self : SlidingWindowRateLimiter) (u v : string).

Lemma within_capacity_init W M : within_capacity (__init__ W M).
Proof. intros v w H. simpl in H. by rewrite lookup_empty in H. Qed.

Lemma within_capacity_cleanup self u t :
  within_capacity self → within_capacity (_cleanup_window self u t).
Proof.
  intros Hinv v w Hw. rewrite cleanup_max_requests.
  destruct (decide (u = v)) as [<-|Hne].
  - rewrite cleanup_lookup in Hw.
    apply prune_entry_Some in Hw as (gone & Hold & _).
    pose proof (Hinv u _ Hold) as Hlen. rewrite length_app in Hlen. lia.
  - rewrite cleanup_lookup_ne in Hw by done. exact (Hinv v w Hw).
Qed.

Lemma within_capacity_append self u t :
  under_limit self u = true → within_capacity self →
  within_capacity (append_timestamp self u t).
Proof.
  intros Hadmit Hinv v w Hw.
  change (max_requests (append_timestamp self u t)) with (max_requests self).
  destruct (decide (u = v)) as [<-|Hne].
  - rewrite append_timestamp_lookup in Hw. injection Hw as <-.
    unfold under_limit in Hadmit. rewrite length_app. simpl.
    destruct (users_requests self !! u) as [w0|]; simpl.
    + apply Z.ltb_lt in Hadmit. lia.
    + lia.
  - rewrite append_timestamp_lookup_ne in Hw by done. exact (Hinv v w Hw).
Qed.

Lemma within_capacity_exec self c :
  within_capacity self → within_capacity (exec self c).
Proof.
  intros Hinv. destruct c as [u t|u t t'|u t]; simpl.
  - rewrite can_send_message_eq. by apply within_capacity_cleanup.
  - rewrite record_message_eq.
    destruct (under_limit _ u) eqn:E; cbn [snd].
    + apply within_capacity_append; [done|].
      by do 2 apply within_capacity_cleanup.
    + by do 2 apply within_capacity_cleanup.
  - rewrite time_until_next_allowed_eq. by apply within_capacity_cleanup.
Qed.

Lemma within_capacity_run calls : ∀ self,
  within_capacity self → within_capacity (run self calls).
Proof.
  induction calls as [|c calls IH]; intros self Hinv; [done|].
  simpl. apply IH. by apply within_capacity_exec.
Qed.

Lemma prune_entry_front bound entry w :
  prune_entry bound entry = Some w →
  ∃ oldest rest, w = oldest :: rest ∧ bound < oldest.
Proof.
  destruct entry as [w0|]; simpl; [|done].
  destruct (popleft_while bound w0) as [|x r] eqn:E; [done|].
  intros [= <-]. exists x, r. split; [done|].
  by apply popleft_while_front in E.
Qed.


End capacity.

(** ** Calls that record nothing for a user *)

Section quiet.
Import rate_limiter.
Implicit Types (self : SlidingWindowRateLimiter) (u v : string).



End quiet.





(** ** Calls inside one span *)

Section span.
Import rate_limiter.
Implicit Types (self : SlidingWindowRateLimiter) (u : string).










End span.

Section span_count.
Import rate_limiter.
Variables (u : string) (T : Q).






End span_count.




(** A span of exactly [window_size] seconds with both ends included is
    not covered: the request admitted at 0 has left the window at 10. *)
Example closed_span_admits_two :
  fst (rate_limiter.record_all (rate_limiter.__init__ 10 1) "1"
         [(0, 0); (10, 10)])
  = [true; true].
Proof. vm_compute. reflexivity. Qed.

(** An entry that is still stored when the span begins can be evicted
    inside the span, so a later call of the sequence may be admitted after
    an earlier one was refused. *)
Example refused_then_admitted_in_span :
  let self := snd (rate_limiter.record_message
                     (rate_limiter.__init__ 10 1) "1" (-5) (-5)) in
  fst (rate_limiter.record_all self "1" [(0, 0); (6, 6)]) = [false; true].
Proof. vm_compute. reflexivity. Qed.

(** * Further properties of the two limiters *)

(** ** Composition of cleanups *)

Section more_cleanup.
Import rate_limiter.
Implicit Types (self : SlidingWindowRateLimiter) (u v : string).

Lemma cleanup_window_later self u t1 t2 :
  _cleanup_window (_cleanup_window self u t1) u t2
  = _cleanup_window self u (later_reading t1 t2).
Proof.
  unfold later_reading. destruct (Qle_bool t1 t2) eqn:E; qbool.
  - by apply cleanup_window_again.
  - apply cleanup_window_back. lra.
Qed.

Lemma later_reading_comm_cleanup self u t1 t2 :
  _cleanup_window self u (later_reading t1 t2)
  = _cleanup_window self u (later_reading t2 t1).
Proof.
  unfold later_reading.
  destruct (Qle_bool t1 t2) eqn:E1, (Qle_bool t2 t1) eqn:E2; qbool;
    try done; try lra.
  rewrite <- (cleanup_window_again self u t1 t2) by done.
  by rewrite cleanup_window_back.
Qed.

Lemma cleanup_window_swap self u v t1 t2 :
  _cleanup_window (_cleanup_window self u t1) v t2
  = _cleanup_window (_cleanup_window self v t2) u t1.
Proof.
  destruct (decide (u = v)) as [<-|Hne].
  - rewrite !cleanup_window_later. apply later_reading_comm_cleanup.
  - apply limiter_ext.
    + by rewrite !cleanup_window_size.
    + by rewrite !cleanup_max_requests.
    + intros x. destruct (decide (v = x)) as [<-|Hvx].
      * rewrite cleanup_lookup, cleanup_window_size.
        rewrite (cleanup_lookup_ne _ u v) by done.
        rewrite (cleanup_lookup_ne _ u v) by done.
        by rewrite cleanup_lookup.
      * rewrite (cleanup_lookup_ne _ v x) by done.
        destruct (decide (u = x)) as [<-|Hux].
        -- rewrite !cleanup_lookup, cleanup_window_size.
           by rewrite (cleanup_lookup_ne _ v u) by done.
        -- by rewrite !cleanup_lookup_ne.
Qed.

End more_cleanup.

(** X1. Two cleanup passes for one user amount to a single pass at the
    later of the two readings, whatever their order; and cleanup passes
    for any two users at any two readings can be swapped. *)
Theorem cleanup_passes_compose
    (self : rate_limiter.SlidingWindowRateLimiter) (u v : string)
    (t1 t2 : Q) :
  rate_limiter._cleanup_window (rate_limiter._cleanup_window self u t1) u t2
  = rate_limiter._cleanup_window self u (later_reading t1 t2)
  ∧ rate_limiter._cleanup_window
      (rate_limiter._cleanup_window self u t1) v t2
    = rate_limiter._cleanup_window
        (rate_limiter._cleanup_window self v t2) u t1.
Proof.
  split; [apply cleanup_window_later | apply cleanup_window_swap].
Qed.


(** ** Queries followed by other calls *)

Section queries.
Import rate_limiter.
Implicit Types (self : SlidingWindowRateLimiter) (u v : string).

Lemma under_limit_cleanup self u t :
  under_limit self u = true → under_limit (_cleanup_window self u t) u = true.
Proof.
  unfold under_limit. rewrite cleanup_lookup, cleanup_max_requests.
  destruct (users_requests self !! u) as [w|] eqn:E; [|done].
  intros H. apply Z.ltb_lt in H.
  destruct (prune_entry _ (Some w)) as [w'|] eqn:E'; [|done].
  apply prune_entry_Some in E' as (gone & [= ->] & _).
  rewrite length_app in H. apply Z.ltb_lt. lia.
Qed.




End queries.

(** X3. Queries are transparent.  [can_send_message] and
    [time_until_next_allowed] for user [u] at a reading [t0] leave the same
    limiter behind, and any call for [u] whose first reading is not
    earlier than [t0] returns the same answer and the same limiter as it
    would have without the query. *)
Theorem queries_are_transparent
    (self : rate_limiter.SlidingWindowRateLimiter) (u : string)
    (t0 t t' : Q) :
  t0 <= t →
  let q := snd (rate_limiter.can_send_message self u t0) in
  snd (rate_limiter.time_until_next_allowed self u t0) = q
  ∧ rate_limiter.can_send_message q u t
    = rate_limiter.can_send_message self u t
  ∧ rate_limiter.record_message q u t t'
    = rate_limiter.record_message self u t t'
  ∧ rate_limiter.time_until_next_allowed q u t
    = rate_limiter.time_until_next_allowed self u t.
Proof.
  intros Ht q. subst q.
  rewrite !can_send_message_eq, !record_message_eq,
    !time_until_next_allowed_eq.
  cbn [snd].
  rewrite !cleanup_window_size, !cleanup_max_requests.
  by rewrite !(cleanup_window_again self u t0 t) by done.
Qed.

Lemma queries_are_transparent_witness :
  let self := snd (rate_limiter.record_message
                     (rate_limiter.__init__ 10 1) "1" 0 0) in
  rate_limiter.record_message
    (snd (rate_limiter.can_send_message self "1" 4)) "1" 11 11
  = rate_limiter.record_message self "1" 11 11.
Proof.
  intros self.
  apply (queries_are_transparent self "1" 4 11 11).
  vm_compute. discriminate.
Defined.

(** X4. A positive answer is honoured.  Sliding window: when
    [can_send_message] answers [true], a [record_message] for the same
    user on the limiter it returns is admitted, whatever its clock
    readings.  Throttling: when [can_send_message] answers [true] at [t0],
    a [record_message] whose check reading is not earlier than [t0] is
    admitted. *)
Theorem positive_answer_is_honoured
    (sw : rate_limiter.SlidingWindowRateLimiter)
    (th : throlling.ThrottlingRateLimiter) (u : string) (t0 t t' : Q) :
  (fst (rate_limiter.can_send_message sw u t0) = true →
   fst (rate_limiter.record_message
          (snd (rate_limiter.can_send_message sw u t0)) u t t') = true)
  ∧ (throlling.can_send_message th u t0 = true → t0 <= t →
     fst (throlling.record_message th u t t') = true).
Proof.
  split.
  - rewrite can_send_message_eq. cbn [fst snd]. intros H.
    rewrite record_message_eq.
    by rewrite (under_limit_cleanup _ u t'
                  (under_limit_cleanup _ u t H)).
  - intros H Ht. unfold throlling.record_message.
    assert (Hlater : throlling.can_send_message th u t = true).
    { apply throttle_can_send_iff. apply throttle_can_send_iff in H.
      destruct H as [H|(last & H & Hlast)]; [by left|].
      right. exists last. split; [done|lra]. }
    by rewrite Hlater.
Qed.

Lemma positive_answer_is_honoured_witness :
  let sw := snd (rate_limiter.record_message
                   (rate_limiter.__init__ 10 2) "1" 0 0) in
  fst (rate_limiter.record_message
         (snd (rate_limiter.can_send_message sw "1" 3)) "1" 1 2) = true.
Proof.
  intros sw.
  apply (proj1 (positive_answer_is_honoured sw (throlling.__init__ 10)
                  "1" 3 1 2)).
  reflexivity.
Defined.




(** ** A maximum that is not positive *)

Section nonpositive_max.
Import rate_limiter.
Implicit Types (a b : SlidingWindowRateLimiter) (u : string).

Lemma cleanup_users_indep a b u t :
  window_size a = window_size b → users_requests a = users_requests b →
  users_requests (_cleanup_window a u t)
  = users_requests (_cleanup_window b u t).
Proof.
  intros HW Hm. unfold _cleanup_window. rewrite HW, Hm.
  destruct (users_requests b !! u) as [w|]; [|done].
  by destruct (popleft_while _ w).
Qed.

Lemma append_users_indep a b u t :
  users_requests a = users_requests b →
  users_requests (append_timestamp a u t)
  = users_requests (append_timestamp b u t).
Proof. intros Hm. unfold append_timestamp. simpl. by rewrite Hm. Qed.

Lemma under_limit_as_one a b u :
  users_requests a = users_requests b →
  users_requests b !! u ≠ Some [] →
  (max_requests a <= 0)%Z → max_requests b = 1%Z →
  under_limit a u = under_limit b u.
Proof.
  intros Hm Hne Ha Hb. unfold under_limit. rewrite Hm, Hb.
  destruct (users_requests b !! u) as [[|x w]|]; [done| |done].
  transitivity false; [apply Z.ltb_ge|symmetry; apply Z.ltb_ge];
    cbn [length]; lia.
Qed.

Lemma wait_of_entry_as_one W M now entry :
  entry ≠ Some [] → (M <= 0)%Z →
  wait_of_entry W M now entry = wait_of_entry W 1 now entry.
Proof.
  intros Hne HM. destruct entry as [[|x w]|]; [done| |done].
  cbn [wait_of_entry].
  assert (H0 : (Z.of_nat (length (x :: w)) <? M)%Z = false)
    by (apply Z.ltb_ge; cbn [length]; lia).
  assert (H1 : (Z.of_nat (length (x :: w)) <? 1)%Z = false)
    by (apply Z.ltb_ge; cbn [length]; lia).
  by rewrite H0, H1.
Qed.

End nonpositive_max.

(** X7. A maximum of zero or less acts as a maximum of one: for every
    dictionary content and every clock reading, each of the three public
    methods of a limiter with [max_requests <= 0] returns the same answer
    and leaves the same dictionary as the limiter with the same window and
    [max_requests = 1]. *)
Theorem nonpositive_max_acts_as_one
    (self : rate_limiter.SlidingWindowRateLimiter) (u : string) (t t' : Q) :
  (rate_limiter.max_requests self <= 0)%Z →
  let one := rate_limiter.Build (rate_limiter.window_size self) 1
               (rate_limiter.users_requests self) in
  (fst (rate_limiter.can_send_message self u t)
   = fst (rate_limiter.can_send_message one u t)
   ∧ rate_limiter.users_requests (snd (rate_limiter.can_send_message self u t))
     = rate_limiter.users_requests
         (snd (rate_limiter.can_send_message one u t)))
  ∧ (fst (rate_limiter.record_message self u t t')
     = fst (rate_limiter.record_message one u t t')
     ∧ rate_limiter.users_requests
         (snd (rate_limiter.record_message self u t t'))
       = rate_limiter.users_requests
           (snd (rate_limiter.record_message one u t t')))
  ∧ (fst (rate_limiter.time_until_next_allowed self u t)
     = fst (rate_limiter.time_until_next_allowed one u t)
     ∧ rate_limiter.users_requests
         (snd (rate_limiter.time_until_next_allowed self u t))
       = rate_limiter.users_requests
           (snd (rate_limiter.time_until_next_allowed one u t))).
Proof.
  intros HM one.
  assert (H1 : rate_limiter.users_requests
                 (rate_limiter._cleanup_window self u t)
               = rate_limiter.users_requests
                   (rate_limiter._cleanup_window one u t))
    by by apply cleanup_users_indep.
  assert (H2 : rate_limiter.users_requests
                 (rate_limiter._cleanup_window
                    (rate_limiter._cleanup_window self u t) u t')
               = rate_limiter.users_requests
                   (rate_limiter._cleanup_window
                      (rate_limiter._cleanup_window one u t) u t')).
  { apply cleanup_users_indep; [|done]. by rewrite !cleanup_window_size. }
  assert (Hu1 : under_limit (rate_limiter._cleanup_window self u t) u
                = under_limit (rate_limiter._cleanup_window one u t) u).
  { apply under_limit_as_one; [done|apply cleanup_window_not_empty| |].
    - by rewrite cleanup_max_requests.
    - by rewrite cleanup_max_requests. }
  assert (Hu2 : under_limit
                  (rate_limiter._cleanup_window
                     (rate_limiter._cleanup_window self u t) u t') u
                = under_limit
                    (rate_limiter._cleanup_window
                       (rate_limiter._cleanup_window one u t) u t') u).
  { apply under_limit_as_one; [done|apply cleanup_window_not_empty| |].
    - by rewrite !cleanup_max_requests.
    - by rewrite !cleanup_max_requests. }
  split; [|split].
  - rewrite !can_send_message_eq. cbn [fst snd]. by split.
  - rewrite !record_message_eq, Hu2.
    destruct (under_limit
                (rate_limiter._cleanup_window
                   (rate_limiter._cleanup_window one u t) u t') u);
      cbn [fst snd]; split; try done.
    by apply append_users_indep.
  - rewrite !time_until_next_allowed_eq. cbn [fst snd]. split; [|done].
    rewrite <- H1.
    change (rate_limiter.window_size one)
      with (rate_limiter.window_size self).
    change (rate_limiter.max_requests one) with 1%Z.
    apply wait_of_entry_as_one; [apply cleanup_window_not_empty|done].
Qed.

Lemma nonpositive_max_acts_as_one_witness :
  let self := rate_limiter.Build 10 (-3) {["1" := [0; 1]]} in
  let one := rate_limiter.Build 10 1 {["1" := [0; 1]]} in
  fst (rate_limiter.time_until_next_allowed self "1" 4)
  = fst (rate_limiter.time_until_next_allowed one "1" 4).
Proof.
  intros self one.
  apply (nonpositive_max_acts_as_one self "1" 4 4). vm_compute. discriminate.
Defined.

(** ** Invariants of every history *)

Section more_histories.
Import rate_limiter.
Implicit Types (self : SlidingWindowRateLimiter) (u v : string).

Lemma all_nonempty_init W M : all_nonempty (__init__ W M).
Proof. intros v w H. simpl in H. by rewrite lookup_empty in H. Qed.

Lemma all_nonempty_cleanup self u t :
  all_nonempty self → all_nonempty (_cleanup_window self u t).
Proof.
  intros Hinv v w Hw. destruct (decide (u = v)) as [<-|Hne].
  - intros ->. by destruct (cleanup_window_not_empty self u t).
  - rewrite cleanup_lookup_ne in Hw by done. exact (Hinv v w Hw).
Qed.

Lemma all_nonempty_append self u t :
  all_nonempty self → all_nonempty (append_timestamp self u t).
Proof.
  intros Hinv v w Hw. destruct (decide (u = v)) as [<-|Hne].
  - rewrite append_timestamp_lookup in Hw. injection Hw as <-.
    by destruct (default [] _).
  - rewrite append_timestamp_lookup_ne in Hw by done. exact (Hinv v w Hw).
Qed.

Lemma all_nonempty_exec self c :
  all_nonempty self → all_nonempty (exec self c).
Proof.
  intros Hinv. destruct c as [u t|u t t'|u t]; simpl.
  - rewrite can_send_message_eq. by apply all_nonempty_cleanup.
  - rewrite record_message_eq. destruct (under_limit _ u); cbn [snd].
    + apply all_nonempty_append. by do 2 apply all_nonempty_cleanup.
    + by do 2 apply all_nonempty_cleanup.
  - rewrite time_until_next_allowed_eq. by apply all_nonempty_cleanup.
Qed.

Lemma all_nonempty_run calls : ∀ self,
  all_nonempty self → all_nonempty (run self calls).
Proof.
  induction calls as [|c calls IH]; intros self Hinv; [done|].
  simpl. apply IH. by apply all_nonempty_exec.
Qed.

(** The state reached by a history with an ordered clock, with the latest
    reading made explicit. *)
Lemma ordered_history_state W M calls now :
  nondecreasing (flat_map readings calls ++ [now]) = true →
  ∃ hi, ordered_upto hi (run (__init__ W M) calls) ∧ hi <= now.
Proof.
  intros Hclock.
  destruct (flat_map readings calls ++ [now]) as [|y l] eqn:El.
  { by destruct (flat_map readings calls). }
  pose proof (nondecreasing_head (y :: l) y eq_refl Hclock) as Hclock'.
  rewrite <- El in Hclock'.
  destruct (ordered_upto_run calls y (__init__ W M) [now]
              (ordered_upto_init y W M) Hclock') as (hi & Hinv & Hhi).
  exists hi. split; [done|].
  change (Qle_bool hi now && true = true) in Hhi.
  apply andb_prop in Hhi as [Hhi _]. by qbool.
Qed.

End more_histories.

(** X8. Invariants of every history, whatever the clock does: after any
    sequence of public calls on a fresh limiter the two configuration
    values are the constructor's, no stored deque is empty, and no stored
    deque holds more than [max_requests] timestamps (more than one, when
    [max_requests] is not positive). *)
Theorem history_invariants
    (W : Q) (M : Z) (calls : list rate_limiter.call) :
  let self := rate_limiter.run (rate_limiter.__init__ W M) calls in
  rate_limiter.window_size self = W
  ∧ rate_limiter.max_requests self = M
  ∧ ∀ v w, rate_limiter.users_requests self !! v = Some w →
      w ≠ [] ∧ (Z.of_nat (length w) <= Z.max 1 M)%Z.
Proof.
  intros self.
  destruct (run_config calls (rate_limiter.__init__ W M)) as [HW HM].
  fold self in HW, HM. split; [done|]. split; [done|].
  intros v w Hw. split.
  - exact (all_nonempty_run calls _ (all_nonempty_init W M) v w Hw).
  - pose proof (within_capacity_run calls _ (within_capacity_init W M) v w Hw)
      as Hlen.
    fold self in Hlen. by rewrite HM in Hlen.
Qed.

(** X9. Under a clock that never goes backwards, after any history of
    calls on a fresh limiter: every stored deque is in non-decreasing
    order and holds no timestamp later than the current reading, and
    [time_until_next_allowed] returns either [0] or a positive wait of at
    most [window_size]. *)
Theorem ordered_clock_history
    (W : Q) (M : Z) (calls : list rate_limiter.call) (u : string) (now : Q) :
  nondecreasing (flat_map rate_limiter.readings calls ++ [now]) = true →
  let self := rate_limiter.run (rate_limiter.__init__ W M) calls in
  let wait := fst (rate_limiter.time_until_next_allowed self u now) in
  (∀ v w, rate_limiter.users_requests self !! v = Some w →
     nondecreasing w = true ∧ Forall (λ t, t <= now) w)
  ∧ (wait = 0 ∨ (0 < wait ∧ wait <= W)).
Proof.
  intros Hclock self wait.
  destruct (ordered_history_state W M calls now Hclock) as (hi & Hinv & Hhi).
  fold self in Hinv.
  assert (HW : rate_limiter.window_size self = W).
  { subst self. by destruct (run_config calls (rate_limiter.__init__ W M)). }
  split.
  - intros v w Hw. destruct (Hinv v w Hw) as (_ & Hs & Hall).
    split; [done|]. eapply Forall_impl; [exact Hall|]. simpl. intros; lra.
  - subst wait. rewrite time_until_next_allowed_eq. cbn [fst].
    rewrite cleanup_lookup, HW.
    destruct (prune_entry (now - W) (rate_limiter.users_requests self !! u))
      as [w|] eqn:E; [|by left].
    destruct (prune_entry_front _ _ _ E) as (a & rest & -> & Ha).
    apply prune_entry_Some in E as (gone & Hold & _).
    destruct (Hinv u _ Hold) as (_ & _ & Hall).
    apply Forall_app in Hall as [_ Hall].
    apply Forall_cons in Hall as [Hahi _].
    cbn [wait_of_entry].
    destruct (Z.of_nat (length (a :: rest)) <? rate_limiter.max_requests self)%Z;
      [by left|].
    right. rewrite py_max_pos_r by lra. split; lra.
Qed.

Lemma ordered_clock_history_witness :
  let self := rate_limiter.run (rate_limiter.__init__ 10 1)
                [rate_limiter.Record_ "1" 0 1; rate_limiter.CanSend "1" 2] in
  let wait := fst (rate_limiter.time_until_next_allowed self "1" 3) in
  wait = 0 ∨ (0 < wait ∧ wait <= 10).
Proof.
  intros self wait.
  apply (ordered_clock_history 10 1
           [rate_limiter.Record_ "1" 0 1; rate_limiter.CanSend "1" 2] "1" 3).
  reflexivity.
Defined.

Lemma expired_entry_answers
    (self : rate_limiter.SlidingWindowRateLimiter) (u : string) (t t' : Q) :
  rate_limiter.users_requests (rate_limiter._cleanup_window self u t) !! u
  = None →
  fst (rate_limiter.can_send_message self u t) = true
  ∧ fst (rate_limiter.record_message self u t t') = true
  ∧ fst (rate_limiter.time_until_next_allowed self u t) = 0.
Proof.
  intros Hgone. split; [|split].
  - rewrite can_send_message_eq. cbn [fst]. by apply under_limit_untracked.
  - rewrite record_message_eq.
    rewrite (cleanup_window_untracked _ u t') by done.
    by rewrite under_limit_untracked.
  - rewrite time_until_next_allowed_eq. cbn [fst]. by rewrite Hgone.
Qed.

Lemma ordered_entry_expired
    (self : rate_limiter.SlidingWindowRateLimiter) (u : string) (hi t : Q) :
  ordered_upto hi self → hi <= t - rate_limiter.window_size self →
  rate_limiter.users_requests (rate_limiter._cleanup_window self u t) !! u
  = None.
Proof.
  intros Hinv Hhi. apply cleanup_window_expired.
  destruct (rate_limiter.users_requests self !! u) as [w|] eqn:E; [|by left].
  right. exists w. split; [done|].
  destruct (Hinv u w E) as (_ & _ & Hall).
  eapply Forall_impl; [exact Hall|]. simpl. intros x Hx. lra.
Qed.

(** X10. A window that is not positive limits nothing: with
    [window_size <= 0] and a clock that never goes backwards, after any
    history of calls on a fresh limiter every [can_send_message] and every
    [record_message] answers [true] and [time_until_next_allowed] returns
    [0]. *)
Theorem nonpositive_window_admits_all
    (W : Q) (M : Z) (calls : list rate_limiter.call) (u : string) (t t' : Q) :
  W <= 0 →
  nondecreasing (flat_map rate_limiter.readings calls ++ [t]) = true →
  let self := rate_limiter.run (rate_limiter.__init__ W M) calls in
  fst (rate_limiter.can_send_message self u t) = true
  ∧ fst (rate_limiter.record_message self u t t') = true
  ∧ fst (rate_limiter.time_until_next_allowed self u t) = 0.
Proof.
  intros HW0 Hclock self.
  destruct (ordered_history_state W M calls t Hclock) as (hi & Hinv & Hhi).
  fold self in Hinv.
  assert (HW : rate_limiter.window_size self = W).
  { subst self. by destruct (run_config calls (rate_limiter.__init__ W M)). }
  apply expired_entry_answers.
  apply (ordered_entry_expired self u hi t Hinv). rewrite HW. lra.
Qed.

Lemma nonpositive_window_admits_all_witness :
  let self := rate_limiter.run (rate_limiter.__init__ 0 1)
                [rate_limiter.Record_ "1" 0 0; rate_limiter.Record_ "1" 0 0] in
  fst (rate_limiter.record_message self "1" 0 0) = true.
Proof.
  intros self.
  apply (nonpositive_window_admits_all 0 1
           [rate_limiter.Record_ "1" 0 0; rate_limiter.Record_ "1" 0 0]
           "1" 0 0).
  - vm_compute. discriminate.
  - reflexivity.
Defined.

(** ** The deque as a log of admitted requests *)

Section log.
Import rate_limiter.
Implicit Types (self : SlidingWindowRateLimiter) (u v : string).







End log.



(** X12. A refused [record_message] never changes what later calls
    return: when the call with readings [a], [a'] is refused, every call
    for the same user whose first reading is not earlier than [a] and [a']
    returns the same answer and the same limiter as it would have without
    the refused call. *)
Theorem refused_call_is_transparent
    (self : rate_limiter.SlidingWindowRateLimiter) (u : string)
    (a a' t t' : Q) :
  fst (rate_limiter.record_message self u a a') = false →
  a <= t → a' <= t →
  let self' := snd (rate_limiter.record_message self u a a') in
  rate_limiter.can_send_message self' u t
  = rate_limiter.can_send_message self u t
  ∧ rate_limiter.record_message self' u t t'
    = rate_limiter.record_message self u t t'
  ∧ rate_limiter.time_until_next_allowed self' u t
    = rate_limiter.time_until_next_allowed self u t.
Proof.
  intros Hrej Ha Ha' self'. subst self'.
  destruct (record_message_rejected self u a a' Hrej) as [-> _]. cbn [snd].
  rewrite !can_send_message_eq, !record_message_eq,
    !time_until_next_allowed_eq.
  rewrite !cleanup_window_size, !cleanup_max_requests.
  rewrite !(cleanup_window_again (rate_limiter._cleanup_window self u a)
              u a' t) by done.
  by rewrite !(cleanup_window_again self u a t) by done.
Qed.

Lemma refused_call_is_transparent_witness :
  let self := snd (rate_limiter.record_message
                     (rate_limiter.__init__ 10 1) "1" 0 0) in
  rate_limiter.record_message
    (snd (rate_limiter.record_message self "1" 5 5)) "1" 10 10
  = rate_limiter.record_message self "1" 10 10.
Proof.
  intros self.
  apply (refused_call_is_transparent self "1" 5 5 10 10).
  - reflexivity.
  - vm_compute. discriminate.
  - vm_compute. discriminate.
Defined.

(** ** Sequences of calls on the throttling limiter *)

Section throttle_histories.
Implicit Types (self : throlling.ThrottlingRateLimiter) (u v : string).

Lemma throttle_record_eq self u t t' :
  throlling.record_message self u t t'
  = if throlling.can_send_message self u t
    then (true,
          throlling.Build (throlling.min_interval self)
            (<[u := t']> (throlling.user_last_message_time self)))
    else (false, self).
Proof. reflexivity. Qed.

Lemma throttle_record_interval self u t t' :
  throlling.min_interval (snd (throlling.record_message self u t t'))
  = throlling.min_interval self.
Proof.
  rewrite throttle_record_eq.
  by destruct (throlling.can_send_message self u t).
Qed.

Lemma throttle_record_lookup self u v t t' :
  throlling.user_last_message_time
    (snd (throlling.record_message self v t t')) !! u
  = if bool_decide (v = u) && fst (throlling.record_message self v t t')
    then Some t'
    else throlling.user_last_message_time self !! u.
Proof.
  rewrite throttle_record_eq.
  destruct (throlling.can_send_message self v t); cbn [fst snd].
  - destruct (decide (v = u)) as [->|Hne].
    + rewrite bool_decide_eq_true_2 by done. simpl.
      by rewrite lookup_insert_eq.
    + rewrite bool_decide_eq_false_2 by done. simpl.
      by rewrite lookup_insert_ne.
  - by rewrite andb_false_r.
Qed.

Lemma nondecreasing_tail x l :
  nondecreasing (x :: l) = true → nondecreasing l = true.
Proof.
  destruct l as [|y l]; [done|]. intros H.
  by apply nondecreasing_inv in H as [_ ?].
Qed.



Lemma throttle_run_interval calls : ∀ self,
  throlling.min_interval (snd (throttle_record_all self calls))
  = throlling.min_interval self.
Proof.
  induction calls as [|[[v c] s] calls IH]; intros self; [done|].
  cbn [throttle_record_all].
  pose proof (throttle_record_interval self v c s) as Hint.
  destruct (throlling.record_message self v c s) as [b self1].
  specialize (IH self1).
  destruct (throttle_record_all self1 calls) as [bs self2].
  cbn [snd] in *. by rewrite IH.
Qed.

End throttle_histories.



(** X14. What the throttling limiter remembers.  After any sequence of
    [record_message] calls: [min_interval] is unchanged; no user's entry
    has been removed; and the entry of a user is the time stored by the
    user's most recent admitted call, or the entry the user had before
    when no call of the user was admitted. *)
Theorem throttle_remembers_last_admission
    (self : throlling.ThrottlingRateLimiter) (calls : list (string * Q * Q))
    (u : string) :
  let self' := snd (throttle_record_all self calls) in
  throlling.min_interval self' = throlling.min_interval self
  ∧ (is_Some (throlling.user_last_message_time self !! u) →
     is_Some (throlling.user_last_message_time self' !! u))
  ∧ throlling.user_last_message_time self' !! u
    = match last (throttle_stored_for u self calls) with
      | Some stored => Some stored
      | None => throlling.user_last_message_time self !! u
      end.
Proof.
  revert self. induction calls as [|[[v c] s] calls IH]; intros self; [done|].
  cbn [throttle_record_all throttle_stored_for].
  pose proof (throttle_record_lookup self u v c s) as Hnext.
  pose proof (throttle_record_interval self v c s) as Hint.
  destruct (throlling.record_message self v c s) as [b self1].
  specialize (IH self1).
  destruct (throttle_record_all self1 calls) as [bs self2].
  cbn [fst snd] in *. destruct IH as (IH1 & IH2 & IH3).
  split; [by rewrite IH1|]. split.
  - intros Hsome. apply IH2. rewrite Hnext.
    by destruct (bool_decide (v = u) && b).
  - rewrite IH3, Hnext.
    destruct (bool_decide (v = u) && b).
    + rewrite last_app.
      by destruct (last (throttle_stored_for u self1 calls)).
    + done.
Qed.

(** X15. An interval that is not positive throttles nothing: with
    [min_interval <= 0], every call of a sequence of [record_message]
    calls on a fresh limiter whose clock readings never go backwards is
    admitted. *)
Theorem nonpositive_interval_admits_all
    (I : Q) (calls : list (string * Q * Q)) :
  I <= 0 →
  nondecreasing (throttle_readings calls) = true →
  Forall (λ b, b = true)
    (fst (throttle_record_all (throlling.__init__ I) calls)).
Proof.
  intros HI Hclock.
  assert (Hgen : ∀ calls self hi,
            throlling.min_interval self <= 0 →
            stored_upto hi self →
            nondecreasing (hi :: throttle_readings calls) = true →
            Forall (λ b, b = true) (fst (throttle_record_all self calls))).
  { clear. induction calls as [|[[v c] s] calls IH];
      intros self hi HI Hinv Hclock; [by constructor|].
    change (throttle_readings (((v, c), s) :: calls))
      with (c :: s :: throttle_readings calls) in Hclock.
    apply nondecreasing_inv in Hclock as [Hhc Hclock].
    pose proof Hclock as Hcs. apply nondecreasing_inv in Hcs as [Hcs _].
    cbn [throttle_record_all].
    assert (Hcan : throlling.can_send_message self v c = true).
    { apply throttle_can_send_iff.
      destruct (throlling.user_last_message_time self !! v) as [last|] eqn:E;
        [|by left].
      right. exists last. split; [done|].
      pose proof (Hinv v last E). lra. }
    rewrite throttle_record_eq, Hcan.
    specialize (IH (throlling.Build (throlling.min_interval self)
                      (<[v := s]> (throlling.user_last_message_time self)))
                  s).
    destruct (throttle_record_all _ calls) as [bs self2]. cbn [fst] in *.
    constructor; [done|]. apply IH; [done| |by apply nondecreasing_tail in Hclock].
    intros x last Hx. cbn [throlling.user_last_message_time] in Hx.
    destruct (decide (v = x)) as [->|Hne].
    - rewrite lookup_insert_eq in Hx. injection Hx as <-. lra.
    - rewrite lookup_insert_ne in Hx by done.
      pose proof (Hinv x last Hx). lra. }
  destruct (throttle_readings calls) as [|y l] eqn:El.
  - destruct calls as [|[[v c] s] calls]; [by constructor|done].
  - apply (Hgen calls (throlling.__init__ I) y); [done| |].
    + intros v last Hv. simpl in Hv. by rewrite lookup_empty in Hv.
    + rewrite El. by apply nondecreasing_head.
Qed.

Lemma nonpositive_interval_admits_all_witness :
  Forall (λ b, b = true)
    (fst (throttle_record_all (throlling.__init__ 0)
            [("1", 0, 0); ("1", 0, 0); ("2", 0, 1); ("1", 1, 1)])).
Proof.
  apply (nonpositive_interval_admits_all 0
           [("1", 0, 0); ("1", 0, 0); ("2", 0, 1); ("1", 1, 1)]).
  - vm_compute. discriminate.
  - reflexivity.
Defined.

(** ** A pause re-admits everybody *)

Lemma stored_upto_run (calls : list (string * Q * Q)) :
  ∀ (self : throlling.ThrottlingRateLimiter) (hi : Q) (rest : list Q),
    stored_upto hi self →
    nondecreasing (hi :: throttle_readings calls ++ rest) = true →
    ∃ hi', stored_upto hi' (snd (throttle_record_all self calls))
           ∧ nondecreasing (hi' :: rest) = true.
Proof.
  induction calls as [|[[v c] s] calls IH]; intros self hi rest Hinv Hclock.
  - by exists hi.
  - change (throttle_readings (((v, c), s) :: calls) ++ rest)
      with (c :: s :: throttle_readings calls ++ rest) in Hclock.
    apply nondecreasing_inv in Hclock as [Hhc Hclock].
    apply nondecreasing_inv in Hclock as [Hcs Hclock].
    cbn [throttle_record_all].
    pose proof (throttle_record_lookup self) as Hnext.
    specialize (λ x, Hnext x v c s).
    destruct (throlling.record_message self v c s) as [b self1].
    specialize (IH self1 s rest).
    destruct (throttle_record_all self1 calls) as [bs self2].
    cbn [fst snd] in *. apply IH; [|done].
    intros x last Hx. rewrite Hnext in Hx.
    destruct (bool_decide (v = x) && b).
    + injection Hx as <-. lra.
    + pose proof (Hinv x last Hx). lra.
Qed.

(** X16. A pause re-admits everybody.  Let [t0] be a reading not earlier
    than any reading of a history on a fresh limiter whose clock never goes
    backwards.  Sliding window: at a reading [t >= t0 + window_size] every
    user is admitted and has wait [0].  Throttling: at a check reading
    [t >= t0 + min_interval] every user is admitted and has wait [0]. *)
Theorem pause_readmits
    (W : Q) (M : Z) (calls : list rate_limiter.call)
    (I : Q) (tcalls : list (string * Q * Q))
    (u : string) (t0 t t' : Q) :
  nondecreasing (flat_map rate_limiter.readings calls ++ [t0]) = true →
  nondecreasing (throttle_readings tcalls ++ [t0]) = true →
  let sw := rate_limiter.run (rate_limiter.__init__ W M) calls in
  let th := snd (throttle_record_all (throlling.__init__ I) tcalls) in
  (t0 + W <= t →
   fst (rate_limiter.can_send_message sw u t) = true
   ∧ fst (rate_limiter.record_message sw u t t') = true
   ∧ fst (rate_limiter.time_until_next_allowed sw u t) = 0)
  ∧ (t0 + I <= t →
     throlling.can_send_message th u t = true
     ∧ fst (throlling.record_message th u t t') = true
     ∧ throlling.time_until_next_allowed th u t = 0).
Proof.
  intros Hclock Htclock sw th. split.
  - intros Hpause.
    destruct (ordered_history_state W M calls t0 Hclock) as (hi & Hinv & Hhi).
    fold sw in Hinv.
    assert (HW : rate_limiter.window_size sw = W).
    { subst sw.
      by destruct (run_config calls (rate_limiter.__init__ W M)). }
    apply expired_entry_answers.
    apply (ordered_entry_expired sw u hi t Hinv). rewrite HW. lra.
  - intros Hpause.
    assert (Hth : ∃ hi, stored_upto hi th ∧ hi <= t0).
    { destruct (throttle_readings tcalls ++ [t0]) as [|y l] eqn:El.
      { by destruct (throttle_readings tcalls). }
      pose proof (nondecreasing_head (y :: l) y eq_refl Htclock) as Hc.
      rewrite <- El in Hc.
      destruct (stored_upto_run tcalls (throlling.__init__ I) y [t0])
        as (hi & Hinv & Hhi); [|done|].
      - intros v last Hv. simpl in Hv. by rewrite lookup_empty in Hv.
      - exists hi. split; [done|].
        change (Qle_bool hi t0 && true = true) in Hhi.
        apply andb_prop in Hhi as [Hhi _]. by qbool. }
    destruct Hth as (hi & Hinv & Hhi).
    assert (HI : throlling.min_interval th = I).
    { subst th. by rewrite throttle_run_interval. }
    assert (Hcan : throlling.can_send_message th u t = true).
    { apply throttle_can_send_iff.
      destruct (throlling.user_last_message_time th !! u) as [last|] eqn:E;
        [|by left].
      right. exists last. split; [done|].
      pose proof (Hinv u last E). rewrite HI. lra. }
    split; [done|]. split.
    + rewrite throttle_record_eq. by rewrite Hcan.
    + unfold throlling.time_until_next_allowed.
      destruct (throlling.user_last_message_time th !! u) as [last|] eqn:E;
        [|done].
      apply py_max_l_zero. pose proof (Hinv u last E). rewrite HI. lra.
Qed.

Lemma pause_readmits_witness :
  fst (rate_limiter.record_message
         (rate_limiter.run (rate_limiter.__init__ 10 1)
            [rate_limiter.Record_ "1" 0 0]) "1" 10 10) = true
  ∧ fst (throlling.record_message
           (snd (throttle_record_all (throlling.__init__ 10) [("1", 0, 0)]))
           "1" 10 10) = true.
Proof.
  destruct (pause_readmits 10 1 [rate_limiter.Record_ "1" 0 0]
              10 [("1", 0, 0)] "1" 0 10 10 eq_refl eq_refl)
    as [Hsliding Hthrottle].
  split.
  - apply Hsliding. vm_compute. discriminate.
  - apply Hthrottle. vm_compute. discriminate.
Defined.

(** ** The demonstration stream of the sliding-window limiter *)

Section stream.
Import rate_limiter.
Implicit Types (self : SlidingWindowRateLimiter) (u v : string).







End stream.









(** ** The demonstration stream of the throttling limiter *)

Section throttle_stream.
Implicit Types (self : throlling.ThrottlingRateLimiter) (u v : string).







End throttle_stream.











Lemma history_invariants_witness :
  let self := rate_limiter.run (rate_limiter.__init__ 10 2)
                [rate_limiter.Record_ "1" 5 5; rate_limiter.Record_ "1" 0 0;
                 rate_limiter.Record_ "1" 1 1] in
  [5; 0] ≠ [] ∧ (Z.of_nat (length [5; 0]) <= Z.max 1 2)%Z.
Proof.
  intros self.
  destruct (history_invariants 10 2
              [rate_limiter.Record_ "1" 5 5; rate_limiter.Record_ "1" 0 0;
               rate_limiter.Record_ "1" 1 1]) as (_ & _ & Hdeques).
  apply (Hdeques "1" [5; 0]). reflexivity.
Defined.

Lemma throttle_remembers_last_admission_witness :
  let self := throlling.__init__ 10 in
  let calls := [("1", 0, 1); ("1", 5, 5); ("1", 11, 12)] in
  throlling.user_last_message_time (snd (throttle_record_all self calls))
    !! "1"
  = Some 12.
Proof.
  intros self calls.
  destruct (throttle_remembers_last_admission self calls "1")
    as (_ & _ & Hentry).
  exact Hentry.
Defined.
